(** * Waterfall / bridge chart layout of Dashboards/generate_mockups.py

    The dashboard generator lays out four bridge charts.  The helper
    [_waterfall] holds the generic loop; [db_pl_waterfall] and
    [db_cash_flow] repeat the loop inline with one difference (the height
    of the closing bar).  Only the layout part is embedded: the three
    parallel lists [bottoms], [bar_vals], [colors] and the [running] total
    that the drawing calls consume afterwards, and the connector loop that
    indexes them.

    The loop is embedded twice.  Over exact rationals ([Q]) it carries the
    statements about counts, signs, colors and the sums the code itself
    forms, term for term.  In module [B64] the same loop runs on binary64
    numbers, as Python's [float] does; there rounding, NaN and the
    infinities are what they are in the program, and the two dashboards
    are evaluated on their literal lists. *)

From Stdlib Require Import String List ZArith QArith Qabs Qminmax Lia Bool Floats.

(** Decimal literals stand for the nearest binary64 number, as in Python. *)
Set Warnings "-inexact-float".
Import ListNotations.

(** ** Data *)

(** The palette entries the layout loop uses. *)
Inductive color : Set := ACCENT_BLUE | GREEN | RED.

(** The role a palette entry plays in a bridge chart. *)
Inductive colorClass : Set := ANCHOR | INCREASE | DECREASE.

Definition color_class (c : color) : colorClass :=
  match c with
  | ACCENT_BLUE => ANCHOR
  | GREEN => INCREASE
  | RED => DECREASE
  end.

(** How a Python call ends.  [IndexError] is what [vals[0]] raises on an
    empty list; [InvalidInput] is the error kind of the written
    specification (no statement of the source raises it). *)
Inductive exn : Set := InvalidInput | IndexError.

Inductive outcome (A : Type) : Type :=
| Returns (a : A)
| Raises (e : exn).
Arguments Returns {A} a.
Arguments Raises {A} e.

(** The local variables of the layout loop. *)
Record locals : Type := mkLocals {
  running : Q;
  bottoms : list Q;
  bar_vals : list Q;
  colors : list color
}.

(** One renderable bar: what [ax.bar] receives at one position. *)
Definition bar : Type := (Q * Q * color)%type.

Definition bar_bottom (b : bar) : Q := fst (fst b).
Definition bar_height (b : bar) : Q := snd (fst b).
Definition bar_color (b : bar) : color := snd b.
Definition bar_top (b : bar) : Q := (bar_bottom b + bar_height b)%Q.

(** The bar at position [i], when the three lists all reach that far. *)
Definition bar_at (st : locals) (i : nat) : option bar :=
  match nth_error (bottoms st) i, nth_error (bar_vals st) i, nth_error (colors st) i with
  | Some b, Some h, Some c => Some (b, h, c)
  | _, _, _ => None
  end.

(** [enumerate(values)]. *)
Definition enumerate {A : Type} (l : list A) : list (nat * A) :=
  combine (seq 0 (length l)) l.

(** [values[1:-1]]. *)
Definition interior {A : Type} (l : list A) : list A := removelast (tl l).

(** [sum(l)]. *)
Definition Qsum (l : list Q) : Q := fold_right Qplus 0%Q l.

(** ** The loop *)

Section Loop.

(** Height of the bar at index [n - 1], from the running total and the
    value found there: the one place where the copies of the loop differ. *)
Variable end_height : Q -> Q -> Q.

(** [n = len(categories)]. *)
Variable n : nat.

(** The three [append] calls of one branch. *)
Definition push (st : locals) (b h : Q) (c : color) : locals :=
  {| running := running st;
     bottoms := bottoms st ++ [b];
     bar_vals := bar_vals st ++ [h];
     colors := colors st ++ [c] |}.

Definition set_running (st : locals) (r : Q) : locals :=
  {| running := r;
     bottoms := bottoms st;
     bar_vals := bar_vals st;
     colors := colors st |}.

(** The body of [for i, v in enumerate(values)]. *)
Definition body (st : locals) (iv : nat * Q) : locals :=
  let (i, v) := iv in
  if (Z.of_nat i =? 0)%Z then
    push st 0%Q v ACCENT_BLUE
  else if (Z.of_nat i =? Z.of_nat n - 1)%Z then
    push st 0%Q (end_height (running st) v) ACCENT_BLUE
  else
    let st' :=
      if Qle_bool 0 v then push st (running st) v GREEN
      else push st (running st + v)%Q (Qabs v) RED in
    set_running st' (running st + v)%Q.

Definition loop_pairs (ps : list (nat * Q)) (st : locals) : locals :=
  fold_left body ps st.

Definition loop (values : list Q) (st : locals) : locals :=
  loop_pairs (enumerate values) st.

End Loop.

(** [running = r; bottoms = []; bar_vals = []; colors = []]. *)
Definition init (r : Q) : locals :=
  {| running := r; bottoms := []; bar_vals := []; colors := [] |}.

(** [running + v if v != 0 else running], the closing bar of [_waterfall]. *)
Definition closing_height (running v : Q) : Q :=
  if negb (Qeq_bool v 0) then (running + v)%Q else running.

(** The layout part of [_waterfall(ax, categories, values, start_val, ...)]:
    the locals as they stand when [ax.bar] is called. *)
Definition _waterfall (categories : list string) (values : list Q) (start_val : Q)
  : outcome locals :=
  Returns (loop closing_height (length categories) values (init start_val)).

(** The loop as [db_pl_waterfall] and [db_cash_flow] repeat it inline
    over their literal lists: [running] is folded over [vals[1:-1]]
    beforehand from a literal [start], the loop variable is [run = vals[0]],
    and the closing bar takes [running] whatever [vals[-1]] holds.  The
    result pairs [running] with the loop's locals (whose [running] field is
    the source's [run]). *)
Definition inline_bridge (cats : list string) (vals : list Q) (start : Q)
  : outcome (Q * locals) :=
  let running := fold_left Qplus (interior vals) start in
  let n := length cats in
  match vals with
  | [] => Raises IndexError
  | run :: _ => Returns (running, loop (fun _ _ => running) n vals (init run))
  end.

(** A label broken over two lines. *)
Definition two_lines (a b : string) : string :=
  (a ++ String (Ascii.ascii_of_nat 10) b)%string.

(** The running total when the loop of [_waterfall] reaches index [i]. *)
Definition running_before (n : nat) (values : list Q) (start_val : Q) (i : nat) : Q :=
  running (loop closing_height n (firstn i values) (init start_val)).

(** The same for the inline loop ([run] before index [i]). *)
Definition run_before (n : nat) (vals : list Q) (total : Q) (i : nat) : Q :=
  running (loop (fun _ _ => total) n (firstn i vals) (init (hd 0%Q vals))).

(** ** Vocabulary of the statements *)

(** A valid call: one label per value, at least a START and an END value,
    and the start value is the first value. *)
Definition valid_steps (categories : list string) (values : list Q) (start_val : Q)
  : Prop :=
  length categories = length values /\
  (2 <= length values)%nat /\
  nth_error values 0 = Some start_val.

(** Index [i] lies strictly between the first and the last index and
    holds [v]. *)
Definition interior_step (values : list Q) (i : nat) (v : Q) : Prop :=
  (0 < i)%nat /\ (S i < length values)%nat /\ nth_error values i = Some v.

(** The bar fills exactly the vertical span between two totals. *)
Definition spans (b : bar) (before after : Q) : Prop :=
  (Qmin (bar_bottom b) (bar_top b) == Qmin before after)%Q /\
  (Qmax (bar_bottom b) (bar_top b) == Qmax before after)%Q.

(** Position, size and color of the bar at an interior index [i] holding
    [v], between the running totals [before] and [after] that pass. *)
Definition interior_bar_law (st : locals) (i : nat) (v before after : Q) : Prop :=
  exists b : bar,
    bar_at st i = Some b /\
    ((0 <= v)%Q ->
       (bar_bottom b == before)%Q /\ (bar_height b == v)%Q /\
       color_class (bar_color b) = INCREASE) /\
    ((v < 0)%Q ->
       (bar_bottom b == before + v)%Q /\ (bar_height b == - v)%Q /\
       color_class (bar_color b) = DECREASE) /\
    spans b before after.

(** ** The connector lines *)

(** One dashed connector, [ax.plot([i + x0, i + x1], [top, top], ...)]:
    its two x coordinates and its height. *)
Definition segment : Type := (Q * Q * Q)%type.

(** [range(k)] for a Python integer [k]; empty when [k] is not positive. *)
Definition range (k : Z) : list nat := seq 0 (Z.to_nat k).

(** The passes of [for i in range(n - 1)] over the indices [idx]:
    [top = bottoms[i] + bar_vals[i]], then the [ax.plot] call.  An index
    past the end of either list raises [IndexError] and ends the loop. *)
Fixpoint connector_loop (x0 x1 : Q) (st : locals) (idx : list nat)
  : outcome (list segment) :=
  match idx with
  | [] => Returns []
  | i :: rest =>
      match nth_error (bottoms st) i, nth_error (bar_vals st) i with
      | Some b, Some h =>
          match connector_loop x0 x1 st rest with
          | Returns segs =>
              Returns ((inject_Z (Z.of_nat i) + x0, inject_Z (Z.of_nat i) + x1,
                        b + h)%Q :: segs)
          | Raises e => Raises e
          end
      | _, _ => Raises IndexError
      end
  end.

(** The connector loop that follows the layout, for [n = len(categories)]. *)
Definition connectors (x0 x1 : Q) (n : nat) (st : locals) : outcome (list segment) :=
  connector_loop x0 x1 st (range (Z.of_nat n - 1)).

(** The connectors of [_waterfall], from [i + 0.275] to [i + 0.725].  The
    drawing calls between the layout loop and this one are not modelled. *)
Definition waterfall_connectors (categories : list string) (values : list Q)
  (start_val : Q) : outcome (list segment) :=
  match _waterfall categories values start_val with
  | Returns st => connectors 0.275 0.725 (length categories) st
  | Raises e => Raises e
  end.

(** The connectors of an inline copy; [db_pl_waterfall] draws them from
    [i + 0.275] to [i + 0.725], [db_cash_flow] from [i + 0.25] to
    [i + 0.75]. *)
Definition inline_connectors (x0 x1 : Q) (cats : list string) (vals : list Q)
  (start : Q) : outcome (list segment) :=
  match inline_bridge cats vals start with
  | Returns (_, st) => connectors x0 x1 (length cats) st
  | Raises e => Raises e
  end.

(** ** Vocabulary of the further statements *)



(** There is one connector per gap between neighbouring bars, and the
    connector of gap [i] lies at the top of bar [i]. *)
Definition connectors_at_tops (x0 x1 : Q) (values : list Q) (st : locals)
  (segs : list segment) : Prop :=
  length segs = (length values - 1)%nat /\
  forall i, (S i < length values)%nat ->
    exists b, bar_at st i = Some b /\
      nth_error segs i =
        Some ((inject_Z (Z.of_nat i) + x0)%Q, (inject_Z (Z.of_nat i) + x1)%Q,
              bar_top b).

(** Where the connector of gap [i] lies against [entering], the running
    total with which the pass over index [i + 1] starts: on it after the
    opening bar and after a non-negative value, and [|v|] added to it,
    hence not below it, after a negative value [v]. *)
Definition connector_levels (values : list Q) (entering : nat -> Q)
  (segs : list segment) : Prop :=
  forall i v, (S i < length values)%nat -> nth_error values i = Some v ->
    exists x0 x1 y, nth_error segs i = Some (x0, x1, y) /\
      (i = 0%nat \/ (0 <= v)%Q -> (y == entering (S i))%Q) /\
      ((0 < i)%nat -> (v < 0)%Q ->
         (y == entering (S i) + Qabs v)%Q /\ (entering (S i) <= y)%Q).

(** Position, size and color of the bar at an interior index [i] holding
    [v], with the end of the bar that the passes themselves compute: the
    top of an INCREASE bar and the bottom of a DECREASE bar are the
    running total [after] the pass. *)
Definition interior_bar_ends (st : locals) (i : nat) (v before after : Q) : Prop :=
  exists b : bar,
    bar_at st i = Some b /\
    ((0 <= v)%Q ->
       (bar_bottom b == before)%Q /\ (bar_height b == v)%Q /\
       color_class (bar_color b) = INCREASE /\
       (bar_top b == after)%Q) /\
    ((v < 0)%Q ->
       (bar_bottom b == before + v)%Q /\ (bar_height b == - v)%Q /\
       color_class (bar_color b) = DECREASE /\
       (bar_bottom b == after)%Q).

(** ** The same loop on binary64 numbers *)

Module B64.

(** The local variables of the layout loop, as Python floats. *)
Record locals : Type := mkLocals {
  running : float;
  bottoms : list float;
  bar_vals : list float;
  colors : list color
}.

Definition bar : Type := (float * float * color)%type.

Definition bar_bottom (b : bar) : float := fst (fst b).
Definition bar_height (b : bar) : float := snd (fst b).
Definition bar_color (b : bar) : color := snd b.
Definition bar_top (b : bar) : float := (bar_bottom b + bar_height b)%float.

Definition bar_at (st : locals) (i : nat) : option bar :=
  match nth_error (bottoms st) i, nth_error (bar_vals st) i, nth_error (colors st) i with
  | Some b, Some h, Some c => Some (b, h, c)
  | _, _, _ => None
  end.

Section Loop.

Variable end_height : float -> float -> float.
Variable n : nat.

Definition push (st : locals) (b h : float) (c : color) : locals :=
  {| running := running st;
     bottoms := bottoms st ++ [b];
     bar_vals := bar_vals st ++ [h];
     colors := colors st ++ [c] |}.

Definition set_running (st : locals) (r : float) : locals :=
  {| running := r;
     bottoms := bottoms st;
     bar_vals := bar_vals st;
     colors := colors st |}.

(** The body of [for i, v in enumerate(values)]; [v >= 0] is false on NaN. *)
Definition body (st : locals) (iv : nat * float) : locals :=
  let (i, v) := iv in
  if (Z.of_nat i =? 0)%Z then
    push st 0%float v ACCENT_BLUE
  else if (Z.of_nat i =? Z.of_nat n - 1)%Z then
    push st 0%float (end_height (running st) v) ACCENT_BLUE
  else
    let st' :=
      if (0 <=? v)%float then push st (running st) v GREEN
      else push st (running st + v)%float (abs v) RED in
    set_running st' (running st + v)%float.

Definition loop (values : list float) (st : locals) : locals :=
  fold_left body (enumerate values) st.

End Loop.

Definition init (r : float) : locals :=
  {| running := r; bottoms := []; bar_vals := []; colors := [] |}.

(** [running + v if v != 0 else running]; [v != 0] is true on NaN. *)
Definition closing_height (running v : float) : float :=
  if negb (v =? 0)%float then (running + v)%float else running.

Definition _waterfall (categories : list string) (values : list float)
  (start_val : float) : outcome locals :=
  Returns (loop closing_height (length categories) values (init start_val)).

Definition inline_bridge (cats : list string) (vals : list float) (start : float)
  : outcome (float * locals) :=
  let running := fold_left PrimFloat.add (interior vals) start in
  let n := length cats in
  match vals with
  | [] => Raises IndexError
  | run :: _ => Returns (running, loop (fun _ _ => running) n vals (init run))
  end.

(** The running total when the loop of [_waterfall] reaches index [i]. *)
Definition running_before (n : nat) (values : list float) (start_val : float)
  (i : nat) : float :=
  running (loop closing_height n (firstn i values) (init start_val)).

(** One dashed connector, [ax.plot([i + x0, i + x1], [top, top], ...)]:
    the index [i] it starts from and its height [top]. *)
Definition segment : Type := (nat * float)%type.

(** The passes of [for i in range(n - 1)] over the indices [idx]:
    [top = bottoms[i] + bar_vals[i]], then the [ax.plot] call.  An index
    past the end of either list raises [IndexError] and ends the loop. *)
Fixpoint connector_loop (st : locals) (idx : list nat) : outcome (list segment) :=
  match idx with
  | [] => Returns []
  | i :: rest =>
      match nth_error (bottoms st) i, nth_error (bar_vals st) i with
      | Some b, Some h =>
          match connector_loop st rest with
          | Returns segs => Returns ((i, (b + h)%float) :: segs)
          | Raises e => Raises e
          end
      | _, _ => Raises IndexError
      end
  end.

(** The layout loop of [_waterfall] followed by its connector loop: the
    statements of the function that index a list.  The drawing calls
    between them are not modelled. *)
Definition waterfall_connectors (categories : list string) (values : list float)
  (start_val : float) : outcome (list segment) :=
  match _waterfall categories values start_val with
  | Returns st => connector_loop st (range (Z.of_nat (length categories) - 1))
  | Raises e => Raises e
  end.

(** The layout of [db_pl_waterfall], on its literal lists. *)
Definition db_pl_waterfall : outcome (float * locals) :=
  let cats := [two_lines "Prior Year" "Net Income"; two_lines "Revenue" "Growth";
               two_lines "COGS" "Change"; two_lines "OPEX" "Change";
               "D&A"; "Interest"; two_lines "Tax" "Impact";
               two_lines "Current Year" "Net Income"]%string in
  let vals := [3.84; 1.52; -0.72; -0.35; 0.12; -0.08; 0.40; 0]%float in
  inline_bridge cats vals 3.84%float.

(** The layout of [db_cash_flow], on its literal lists. *)
Definition db_cash_flow : outcome (float * locals) :=
  let cats := [two_lines "Beginning" "Cash"; two_lines "Operating" "CF";
               two_lines "Investing" "CF"; two_lines "Financing" "CF";
               two_lines "FX" "Effect"; two_lines "Ending" "Cash"]%string in
  let vals := [27.7; 18.2; -12.5; -4.1; -0.8; 0]%float in
  inline_bridge cats vals 27.7%float.


End B64.

(** ** Lists and sums *)

Lemma combine_seq_snoc {A : Type} (l : list A) (x : A) (s : nat) :
  combine (seq s (length (l ++ [x]))) (l ++ [x]) =
  combine (seq s (length l)) l ++ [((s + length l)%nat, x)].
Proof.
  revert s; induction l as [|a l IH]; intro s; simpl.
  - now rewrite Nat.add_0_r.
  - rewrite IH. now rewrite Nat.add_succ_r.
Qed.

Lemma enumerate_snoc {A : Type} (l : list A) (x : A) :
  enumerate (l ++ [x]) = enumerate l ++ [(length l, x)].
Proof. unfold enumerate. now rewrite combine_seq_snoc. Qed.

Lemma firstn_snoc {A : Type} (l : list A) (k : nat) (x : A) :
  nth_error l k = Some x -> firstn (S k) l = firstn k l ++ [x].
Proof.
  revert k; induction l as [|a l IH]; intros [|k] H; simpl in *; try discriminate.
  - now inversion H.
  - f_equal. now apply IH.
Qed.

Lemma nth_error_snoc_last {A : Type} (l : list A) (x : A) :
  nth_error (l ++ [x]) (length l) = Some x.
Proof. rewrite nth_error_app2, Nat.sub_diag by lia. reflexivity. Qed.

Lemma Qsum_snoc (l : list Q) (x : Q) : (Qsum (l ++ [x]) == Qsum l + x)%Q.
Proof.
  induction l as [|a l IH]; simpl.
  - ring.
  - rewrite IH. ring.
Qed.


Lemma tl_snoc {A : Type} (l : list A) (x : A) :
  l <> [] -> tl (l ++ [x]) = tl l ++ [x].
Proof. destruct l; [congruence | reflexivity]. Qed.

Lemma interior_snoc {A : Type} (l : list A) (x : A) :
  l <> [] -> interior (l ++ [x]) = tl l.
Proof.
  intro H. unfold interior. rewrite tl_snoc by assumption.
  apply removelast_last.
Qed.


(** ** What the loop does, index by index *)

Section LoopFacts.

Variable end_height : Q -> Q -> Q.
Variable n : nat.

Lemma loop_snoc (l : list Q) (x : Q) (st : locals) :
  loop end_height n (l ++ [x]) st = body end_height n (loop end_height n l st) (length l, x).
Proof.
  unfold loop, loop_pairs.
  now rewrite enumerate_snoc, fold_left_app.
Qed.

(** Every pass appends one entry to each of the three lists. *)
Lemma body_lengths (st : locals) (iv : nat * Q) :
  length (bottoms (body end_height n st iv)) = S (length (bottoms st)) /\
  length (bar_vals (body end_height n st iv)) = S (length (bar_vals st)) /\
  length (colors (body end_height n st iv)) = S (length (colors st)).
Proof.
  destruct iv as [i v]. unfold body.
  destruct (Z.of_nat i =? 0)%Z; [|destruct (Z.of_nat i =? Z.of_nat n - 1)%Z;
    [|destruct (Qle_bool 0 v)]];
    simpl; rewrite !length_app; simpl; lia.
Qed.

Lemma loop_lengths (l : list Q) (st : locals) :
  length (bottoms (loop end_height n l st)) = (length (bottoms st) + length l)%nat /\
  length (bar_vals (loop end_height n l st)) = (length (bar_vals st) + length l)%nat /\
  length (colors (loop end_height n l st)) = (length (colors st) + length l)%nat.
Proof.
  induction l as [|x l IH] using rev_ind.
  - unfold loop, loop_pairs; simpl. lia.
  - pose proof (body_lengths (loop end_height n l st) (length l, x)).
    rewrite loop_snoc, length_app. change (length [x]) with 1%nat. lia.
Qed.

(** Entries already written are never touched again. *)
Lemma body_keeps (st : locals) (iv : nat * Q) (k : nat) :
  (k < length (bottoms st))%nat ->
  (k < length (bar_vals st))%nat ->
  (k < length (colors st))%nat ->
  bar_at (body end_height n st iv) k = bar_at st k.
Proof.
  intros Hb Hh Hc. destruct iv as [i v]. unfold body, bar_at.
  destruct (Z.of_nat i =? 0)%Z; [|destruct (Z.of_nat i =? Z.of_nat n - 1)%Z;
    [|destruct (Qle_bool 0 v)]];
    simpl; now rewrite !nth_error_app1 by assumption.
Qed.

Lemma loop_keeps (l l' : list Q) (st : locals) (k : nat) :
  (k < length (bottoms (loop end_height n l st)))%nat ->
  (k < length (bar_vals (loop end_height n l st)))%nat ->
  (k < length (colors (loop end_height n l st)))%nat ->
  bar_at (loop end_height n (l ++ l') st) k = bar_at (loop end_height n l st) k.
Proof.
  intros Hb Hh Hc. induction l' as [|x l' IH] using rev_ind.
  - now rewrite app_nil_r.
  - rewrite app_assoc, loop_snoc, body_keeps; [exact IH | | |];
      destruct (loop_lengths (l ++ l') st) as (E1 & E2 & E3);
      destruct (loop_lengths l st) as (F1 & F2 & F3);
      rewrite ?E1, ?E2, ?E3, length_app; lia.
Qed.

(** The bar at index [i] is the one the pass over [(i, v)] appends, on
    the locals left by the passes before it. *)
Lemma bar_at_loop (values : list Q) (r : Q) (i : nat) (v : Q) :
  nth_error values i = Some v ->
  bar_at (loop end_height n values (init r)) i =
  bar_at (body end_height n (loop end_height n (firstn i values) (init r)) (i, v)) i.
Proof.
  intro H.
  assert (Hi : (i < length values)%nat) by (apply nth_error_Some; congruence).
  assert (Hlen : length (firstn i values) = i) by (rewrite length_firstn; lia).
  rewrite <- (firstn_skipn (S i) values) at 1.
  rewrite (firstn_snoc _ _ _ H).
  destruct (loop_lengths (firstn i values ++ [v]) (init r)) as (E1 & E2 & E3).
  rewrite loop_keeps by (rewrite ?E1, ?E2, ?E3, length_app, Hlen; simpl; lia).
  now rewrite loop_snoc, Hlen.
Qed.

(** The three lists of the locals left by a prefix have its length. *)
Lemma prefix_lengths (values : list Q) (r : Q) (i : nat) :
  (i <= length values)%nat ->
  length (bottoms (loop end_height n (firstn i values) (init r))) = i /\
  length (bar_vals (loop end_height n (firstn i values) (init r))) = i /\
  length (colors (loop end_height n (firstn i values) (init r))) = i.
Proof.
  intro H. destruct (loop_lengths (firstn i values) (init r)) as (E1 & E2 & E3).
  rewrite E1, E2, E3, length_firstn. simpl. lia.
Qed.

(** [push] puts its bar right after the entries already there. *)
Lemma bar_at_push (st : locals) (b h : Q) (c : color) (k : nat) :
  length (bottoms st) = k -> length (bar_vals st) = k -> length (colors st) = k ->
  bar_at (push st b h c) k = Some (b, h, c).
Proof.
  intros <- Hh Hc. unfold bar_at, push; simpl.
  rewrite nth_error_snoc_last.
  rewrite <- Hh at 1. rewrite nth_error_snoc_last.
  rewrite <- Hc. rewrite nth_error_snoc_last. reflexivity.
Qed.

(** Only the passes strictly between the first and the last index move
    the running total. *)
Lemma running_body (st : locals) (i : nat) (v : Q) :
  running (body end_height n st (i, v)) =
  if ((Z.of_nat i =? 0) || (Z.of_nat i =? Z.of_nat n - 1))%Z then running st
  else (running st + v)%Q.
Proof.
  unfold body.
  destruct (Z.of_nat i =? 0)%Z; [reflexivity|].
  destruct (Z.of_nat i =? Z.of_nat n - 1)%Z; [reflexivity|].
  now destruct (Qle_bool 0 v).
Qed.

(** Before the last index the running total is the start plus what
    follows the first value. *)
Lemma running_prefix (l : list Q) (r : Q) :
  (length l < n)%nat ->
  (running (loop end_height n l (init r)) == r + Qsum (tl l))%Q.
Proof.
  induction l as [|x l IH] using rev_ind; intro H.
  - unfold loop, loop_pairs; simpl. ring.
  - rewrite length_app in H; simpl in H.
    rewrite loop_snoc, running_body.
    destruct l as [|a l].
    + unfold loop, loop_pairs; simpl. ring.
    + replace (Z.of_nat (length (a :: l)) =? 0)%Z with false
        by (symmetry; apply Z.eqb_neq; simpl length; lia).
      replace (Z.of_nat (length (a :: l)) =? Z.of_nat n - 1)%Z with false
        by (symmetry; apply Z.eqb_neq; simpl length in *; lia).
      cbn [orb]. rewrite IH by lia.
      rewrite tl_snoc by discriminate. rewrite Qsum_snoc. ring.
Qed.


(** The bar of an interior index. *)
Lemma interior_bar (values : list Q) (r : Q) (i : nat) (v : Q) :
  (0 < i)%nat -> (S i < n)%nat -> nth_error values i = Some v ->
  let before := running (loop end_height n (firstn i values) (init r)) in
  bar_at (loop end_height n values (init r)) i =
    Some (if Qle_bool 0 v then (before, v, GREEN)
          else ((before + v)%Q, Qabs v, RED)) /\
  running (loop end_height n (firstn (S i) values) (init r)) = (before + v)%Q.
Proof.
  intros H0 Hn Hv before.
  assert (Hi : (i < length values)%nat) by (apply nth_error_Some; congruence).
  assert (E0 : (Z.of_nat i =? 0)%Z = false) by (apply Z.eqb_neq; lia).
  assert (E1 : (Z.of_nat i =? Z.of_nat n - 1)%Z = false) by (apply Z.eqb_neq; lia).
  destruct (prefix_lengths values r i) as (L1 & L2 & L3); [lia|].
  split.
  - rewrite (bar_at_loop _ _ _ _ Hv). unfold body. rewrite E0, E1.
    fold before. destruct (Qle_bool 0 v);
      apply (bar_at_push (loop end_height n (firstn i values) (init r)));
      assumption.
  - rewrite (firstn_snoc _ _ _ Hv), loop_snoc, running_body.
    rewrite length_firstn, Nat.min_l by lia.
    now rewrite E0, E1.
Qed.

(** The bar of index 0. *)
Lemma first_bar (values : list Q) (r : Q) (v : Q) :
  nth_error values 0 = Some v ->
  bar_at (loop end_height n values (init r)) 0 = Some (0%Q, v, ACCENT_BLUE) /\
  running (loop end_height n (firstn 1 values) (init r)) = r.
Proof.
  intro Hv. split.
  - rewrite (bar_at_loop _ _ _ _ Hv). reflexivity.
  - now rewrite (firstn_snoc _ _ _ Hv).
Qed.


(** The bar of an interior index follows the sign of its value and fills
    the span between the running totals around its pass. *)
Lemma loop_interior_law (values : list Q) (r : Q) (i : nat) (v : Q) :
  (0 < i)%nat -> (S i < n)%nat -> nth_error values i = Some v ->
  interior_bar_law (loop end_height n values (init r)) i v
    (running (loop end_height n (firstn i values) (init r)))
    (running (loop end_height n (firstn (S i) values) (init r))).
Proof.
  intros H0 Hn Hv.
  destruct (interior_bar values r i v H0 Hn Hv) as [Hb Ha].
  rewrite Ha. clear Ha.
  set (before := running (loop end_height n (firstn i values) (init r))) in *.
  destruct (Qle_bool 0 v) eqn:E.
  - apply Qle_bool_iff in E.
    exists (before, v, GREEN). split; [exact Hb|].
    unfold spans, bar_top, bar_bottom, bar_height, bar_color; simpl.
    split; [intros _; repeat split; reflexivity|].
    split; [intro Hneg; exfalso; exact (Qlt_not_le _ _ Hneg E)|].
    split; reflexivity.
  - assert (Hneg : (v < 0)%Q).
    { apply Qnot_le_lt. intro Hle. apply Qle_bool_iff in Hle. congruence. }
    assert (Habs : (Qabs v == - v)%Q) by (apply Qabs_neg, Qlt_le_weak, Hneg).
    exists ((before + v)%Q, Qabs v, RED). split; [exact Hb|].
    unfold spans, bar_top, bar_bottom, bar_height, bar_color; simpl.
    split; [intro Hle; exfalso; exact (Qlt_not_le _ _ Hneg Hle)|].
    split; [intros _; split; [reflexivity | split; [exact Habs | reflexivity]]|].
    assert (Htop : (before + v + Qabs v == before)%Q) by (rewrite Habs; ring).
    split.
    + rewrite Htop. apply Q.min_comm.
    + rewrite Htop. apply Q.max_comm.
Qed.

End LoopFacts.


Lemma bar_at_some (st : locals) (i : nat) :
  (i < length (bottoms st))%nat ->
  (i < length (bar_vals st))%nat ->
  (i < length (colors st))%nat ->
  exists b, bar_at st i = Some b.
Proof.
  intros Hb Hh Hc. unfold bar_at.
  apply nth_error_Some in Hb, Hh, Hc.
  destruct (nth_error (bottoms st) i); [|congruence].
  destruct (nth_error (bar_vals st) i); [|congruence].
  destruct (nth_error (colors st) i); [|congruence].
  eexists. reflexivity.
Qed.

(** ** Reading the inline copies through the shared loop *)

Lemma inline_bridge_returns (cats : list string) (vals : list Q) (start : Q) :
  valid_steps cats vals start ->
  inline_bridge cats vals start =
  Returns (fold_left Qplus (interior vals) start,
           loop (fun _ _ => fold_left Qplus (interior vals) start)
                (length cats) vals (init start)) /\
  hd 0%Q vals = start.
Proof.
  intros (_ & _ & H0). destruct vals as [|x l]; [discriminate|].
  simpl in H0. inversion H0; subst. split; reflexivity.
Qed.


Lemma waterfall_interior categories values start_val i v :
  valid_steps categories values start_val ->
  interior_step values i v ->
  let before := running_before (length categories) values start_val i in
  let after := running_before (length categories) values start_val (S i) in
  (before == start_val + Qsum (tl (firstn i values)))%Q /\
  (after == before + v)%Q /\
  interior_bar_law
    (loop closing_height (length categories) values (init start_val))
    i v before after.
Proof.
  intros (Hlen & H2 & Hs) (H0 & Hi & Hv).
  cbv zeta. unfold running_before.
  split; [|split].
  - apply running_prefix. rewrite length_firstn. lia.
  - destruct (interior_bar closing_height (length categories) values
                start_val i v) as [_ Ha]; try assumption; try lia.
    rewrite Ha. reflexivity.
  - apply loop_interior_law; try assumption. lia.
Qed.

Lemma inline_interior cats vals start i v :
  valid_steps cats vals start ->
  interior_step vals i v ->
  exists total st,
    let before := run_before (length cats) vals total i in
    let after := run_before (length cats) vals total (S i) in
    inline_bridge cats vals start = Returns (total, st) /\
    (before == start + Qsum (tl (firstn i vals)))%Q /\
    (after == before + v)%Q /\
    interior_bar_law st i v before after.
Proof.
  intros Hvalid (H0 & Hi & Hv).
  destruct (inline_bridge_returns _ _ _ Hvalid) as [Hret Hhd].
  destruct Hvalid as (Hlen & H2 & Hs).
  eexists. eexists. cbv zeta. split; [exact Hret|].
  unfold run_before. rewrite Hhd.
  split; [|split].
  - apply running_prefix. rewrite length_firstn. lia.
  - destruct (interior_bar (fun _ _ => fold_left Qplus (interior vals) start)
                (length cats) vals start i v) as [_ Ha];
      try assumption; try lia.
    rewrite Ha. reflexivity.
  - apply loop_interior_law; try assumption. lia.
Qed.

Lemma interior_law_ends (st : locals) (i : nat) (v before after : Q) :
  (after == before + v)%Q ->
  interior_bar_law st i v before after ->
  interior_bar_ends st i v before after.
Proof.
  intros Ha (b & Hb & Hpos & Hneg & _).
  exists b. split; [exact Hb|]. split.
  - intro Hv. destruct (Hpos Hv) as (Hbot & Hh & Hc).
    split; [exact Hbot|]. split; [exact Hh|]. split; [exact Hc|].
    unfold bar_top. rewrite Hbot, Hh, Ha. reflexivity.
  - intro Hv. destruct (Hneg Hv) as (Hbot & Hh & Hc).
    split; [exact Hbot|]. split; [exact Hh|]. split; [exact Hc|].
    rewrite Hbot, Ha. reflexivity.
Qed.

(** ** Interior bars *)

(** C1, as amended.  For a valid step sequence and an interior index [i]
    holding [v]: a non-negative [v] gives a bar whose bottom is the
    running total before the pass, whose height is [v] and whose color is
    INCREASE, and its top is the running total after the pass; a negative
    [v] gives a bar whose bottom is the running total before the pass
    plus [v], which is the running total after the pass, whose height is
    [-v] and whose color is DECREASE.  The total before is the start
    value plus the values at indices [1 .. i-1] and the total after is
    that plus [v].  This holds for [_waterfall] and for the loop the
    bridge dashboards repeat inline.  Nothing is said of the top of a
    DECREASE bar: it is bottom plus height, a sum the passes do not form. *)
Theorem interior_bar_follows_sign :
  (forall categories values start_val i v,
      valid_steps categories values start_val ->
      interior_step values i v ->
      let before := running_before (length categories) values start_val i in
      let after := running_before (length categories) values start_val (S i) in
      (before == start_val + Qsum (tl (firstn i values)))%Q /\
      (after == before + v)%Q /\
      exists st, _waterfall categories values start_val = Returns st /\
                 interior_bar_ends st i v before after) /\
  (forall cats vals start i v,
      valid_steps cats vals start ->
      interior_step vals i v ->
      exists total st,
        let before := run_before (length cats) vals total i in
        let after := run_before (length cats) vals total (S i) in
        inline_bridge cats vals start = Returns (total, st) /\
        (before == start + Qsum (tl (firstn i vals)))%Q /\
        (after == before + v)%Q /\
        interior_bar_ends st i v before after).
Proof.
  split.
  - intros categories values start_val i v Hvalid Hint.
    destruct (waterfall_interior _ _ _ _ _ Hvalid Hint) as (Hb & Ha & Hlaw).
    cbv zeta. split; [exact Hb|]. split; [exact Ha|].
    eexists. split; [reflexivity|].
    apply interior_law_ends; assumption.
  - intros cats vals start i v Hvalid Hint.
    destruct (inline_interior _ _ _ _ _ Hvalid Hint)
      as (total & st & Hret & Hb & Ha & Hlaw).
    exists total, st. cbv zeta in *.
    split; [exact Hret|]. split; [exact Hb|]. split; [exact Ha|].
    apply interior_law_ends; assumption.
Qed.

Lemma interior_bar_follows_sign_witness :
  let categories := ["Start"; "Drop"; "End"]%string in
  let values := [10; -3; 0]%Q in
  valid_steps categories values 10 /\
  interior_step values 1 (-3) /\
  (running_before 3 values 10 2 == running_before 3 values 10 1 + -3)%Q /\
  exists st, _waterfall categories values 10 = Returns st /\
             interior_bar_ends st 1 (-3) (running_before 3 values 10 1)
                                         (running_before 3 values 10 2).
Proof.
  cbv zeta.
  assert (Hvalid : valid_steps ["Start"; "Drop"; "End"]%string [10; -3; 0]%Q 10).
  { repeat split. simpl; lia. }
  assert (Hint : interior_step [10; -3; 0]%Q 1 (-3)).
  { repeat split; simpl; lia. }
  split; [exact Hvalid|]. split; [exact Hint|].
  exact (proj2 (proj1 interior_bar_follows_sign _ _ _ _ _ Hvalid Hint)).
Defined.

(** C1 as first stated fails on a decrease: the bar does not reach the
    running total before the pass.  On binary64 numbers, over
    [0.9, -0.2, 0], the running total is 0.9 before index 1 and 0.7 after
    it; the bar of index 1 has bottom 0.7 and height 0.2, and its top
    is 0.8999999999999999, below 0.9. *)
Lemma decrease_bar_top_misses_total_before :
  let categories := ["Start"; "Drop"; "End"]%string in
  let values := [0.9; -0.2; 0]%float in
  exists st b,
    B64._waterfall categories values 0.9 = Returns st /\
    B64.bar_at st 1 = Some b /\
    B64.running_before 3 values 0.9 1 = 0.9%float /\
    B64.running_before 3 values 0.9 2 = 0.7%float /\
    B64.bar_bottom b = 0.7%float /\
    B64.bar_height b = 0.2%float /\
    B64.bar_color b = RED /\
    B64.bar_top b = 0.8999999999999999%float /\
    (B64.bar_top b =? B64.running_before 3 values 0.9 1)%float = false /\
    (B64.bar_top b <? B64.running_before 3 values 0.9 1)%float = true.
Proof.
  cbv zeta. do 2 eexists. split; [reflexivity|].
  split; [vm_compute; reflexivity|].
  repeat split; vm_compute; reflexivity.
Qed.

(** C2, as amended.  For a valid step sequence and an interior index [i]
    holding [v]: when [v] is non-negative the bar's top (bottom plus
    height) is the running total after the pass and the lower of bottom
    and top is the running total before it; when [v] is negative the
    lower of bottom and top is the running total after the pass, and the
    top lies [|v|] above it.  For every valid step sequence the opening
    bar stands on 0, the total before index 0, and the running total
    after index 0 is the first value, the height of that bar. *)
Theorem interior_bar_top_and_bottom :
  (forall categories values start_val i v,
      valid_steps categories values start_val ->
      interior_step values i v ->
      let before := running_before (length categories) values start_val i in
      let after := running_before (length categories) values start_val (S i) in
      exists st b,
        _waterfall categories values start_val = Returns st /\
        bar_at st i = Some b /\
        ((0 <= v)%Q ->
           (bar_top b == after)%Q /\
           (Qmin (bar_bottom b) (bar_top b) == before)%Q) /\
        ((v < 0)%Q ->
           (Qmin (bar_bottom b) (bar_top b) == after)%Q /\
           (bar_top b == after + Qabs v)%Q)) /\
  (forall categories values start_val,
      valid_steps categories values start_val ->
      exists st b0,
        _waterfall categories values start_val = Returns st /\
        bar_at st 0 = Some b0 /\
        (bar_bottom b0 == 0)%Q /\
        nth_error values 0 = Some (bar_height b0) /\
        (running_before (length categories) values start_val 1 ==
         bar_height b0)%Q).
Proof.
  split.
  - intros categories values start_val i v Hvalid Hint.
    destruct (waterfall_interior _ _ _ _ _ Hvalid Hint) as (_ & Ha & Hlaw).
    destruct Hlaw as (b & Hb & Hpos & Hneg & _).
    cbv zeta in *.
    set (before := running_before (length categories) values start_val i) in *.
    set (after := running_before (length categories) values start_val (S i)) in *.
    eexists. exists b. split; [reflexivity|]. split; [exact Hb|]. split.
    + intro Hv. destruct (Hpos Hv) as (Hbot & Hh & _).
      assert (Htop : (bar_top b == after)%Q).
      { unfold bar_top. rewrite Hbot, Hh, Ha. reflexivity. }
      split; [exact Htop|].
      rewrite Htop, Hbot, Ha. apply Q.min_l.
      rewrite <- (Qplus_0_r before) at 1. apply Qplus_le_r. exact Hv.
    + intro Hv. destruct (Hneg Hv) as (Hbot & Hh & _).
      assert (Habs : (Qabs v == - v)%Q) by (apply Qabs_neg, Qlt_le_weak, Hv).
      assert (Htop : (bar_top b == after + Qabs v)%Q).
      { unfold bar_top. rewrite Hbot, Hh, Ha, Habs. reflexivity. }
      split; [|exact Htop].
      rewrite Htop, Hbot, Ha. apply Q.min_l.
      rewrite <- (Qplus_0_r (before + v)) at 1. apply Qplus_le_r.
      apply Qabs_nonneg.
  - intros categories values start_val (Hlen & H2 & Hs).
    destruct (first_bar closing_height (length categories) values start_val
                start_val Hs) as [Hb0 Hr0].
    eexists. exists (0%Q, start_val, ACCENT_BLUE).
    split; [reflexivity|]. split; [exact Hb0|].
    unfold bar_bottom, bar_height; simpl.
    split; [reflexivity|]. split; [exact Hs|].
    unfold running_before. rewrite Hr0. reflexivity.
Qed.

Lemma interior_bar_top_and_bottom_witness :
  let categories := ["Start"; "Drop"; "End"]%string in
  let values := [10; -3; 0]%Q in
  valid_steps categories values 10 /\
  interior_step values 1 (-3) /\
  exists st b,
    _waterfall categories values 10 = Returns st /\
    bar_at st 1 = Some b /\
    ((-3 < 0)%Q ->
       (Qmin (bar_bottom b) (bar_top b) == running_before 3 values 10 2)%Q /\
       (bar_top b == running_before 3 values 10 2 + Qabs (-3))%Q).
Proof.
  cbv zeta.
  assert (Hvalid : valid_steps ["Start"; "Drop"; "End"]%string [10; -3; 0]%Q 10).
  { repeat split. simpl; lia. }
  assert (Hint : interior_step [10; -3; 0]%Q 1 (-3)).
  { repeat split; simpl; lia. }
  split; [exact Hvalid|]. split; [exact Hint|].
  destruct (proj1 interior_bar_top_and_bottom _ _ _ _ _ Hvalid Hint)
    as (st & b & Hret & Hb & _ & Hneg).
  exists st, b. split; [exact Hret|]. split; [exact Hb | exact Hneg].
Defined.

(** C2 as first stated fails on a decrease: over [10, -3, 0] the bar of
    index 1 has bottom 7 and height 3, so its top is 10 and not the
    running total 7 after the pass, and the lower of bottom and top is 7,
    not the running total 10 before the pass.  The same run on binary64
    numbers gives the same bar; and over [0.9, -0.2, 0] the top of the
    DECREASE bar is 0.8999999999999999, neither the running total 0.7
    after the pass nor the running total 0.9 before it. *)
Lemma decrease_bar_top_is_total_before :
  let categories := ["Start"; "Drop"; "End"]%string in
  (let values := [10; -3; 0]%Q in
   valid_steps categories values 10 /\
   interior_step values 1 (-3) /\
   exists st b,
     _waterfall categories values 10 = Returns st /\
     bar_at st 1 = Some b /\
     (running_before 3 values 10 1 == 10)%Q /\
     (running_before 3 values 10 2 == 7)%Q /\
     (bar_bottom b == 7)%Q /\ (bar_height b == 3)%Q /\
     ~ (bar_top b == running_before 3 values 10 2)%Q /\
     ~ (Qmin (bar_bottom b) (bar_top b) == running_before 3 values 10 1)%Q) /\
  (let values := [10; -3; 0]%float in
   exists st b,
     B64._waterfall categories values 10 = Returns st /\
     B64.bar_at st 1 = Some b /\
     B64.running_before 3 values 10 1 = 10%float /\
     B64.running_before 3 values 10 2 = 7%float /\
     B64.bar_bottom b = 7%float /\ B64.bar_top b = 10%float) /\
  (let values := [0.9; -0.2; 0]%float in
   exists st b,
     B64._waterfall categories values 0.9 = Returns st /\
     B64.bar_at st 1 = Some b /\
     (B64.bar_top b =? B64.running_before 3 values 0.9 2)%float = false /\
     (B64.bar_top b =? B64.running_before 3 values 0.9 1)%float = false).
Proof.
  cbv zeta. split; [|split].
  - split; [repeat split; simpl; lia|]. split; [repeat split; simpl; lia|].
    eexists. eexists. split; [reflexivity|]. split; [vm_compute; reflexivity|].
    repeat split; try (vm_compute; reflexivity);
      intro H; vm_compute in H; discriminate.
  - do 2 eexists. split; [reflexivity|]. split; [vm_compute; reflexivity|].
    repeat split; vm_compute; reflexivity.
  - do 2 eexists. split; [reflexivity|]. split; [vm_compute; reflexivity|].
    split; vm_compute; reflexivity.
Qed.

(** ** The closing bar and the final total *)







(** C6, as amended.  On binary64 numbers the P&L bridge
    [3.84, 1.52, -0.72, -0.35, 0.12, -0.08, 0.40, 0] ends on the total
    4.73, and the cash flow bridge [27.7, 18.2, -12.5, -4.1, -0.8, 0] on
    28.499999999999996, the binary64 number next below 28.5; in each the
    closing bar has the total as its height. *)
Theorem source_bridges_totals :
  (exists total st b,
      B64.db_pl_waterfall = Returns (total, st) /\
      total = 4.73%float /\
      B64.bar_at st 7 = Some b /\ B64.bar_height b = total) /\
  (exists total st b,
      B64.db_cash_flow = Returns (total, st) /\
      total = 28.499999999999996%float /\
      next_up total = 28.5%float /\
      B64.bar_at st 5 = Some b /\ B64.bar_height b = total).
Proof.
  split.
  - do 3 eexists. split; [reflexivity|].
    split; [vm_compute; reflexivity|].
    split; vm_compute; reflexivity.
  - do 3 eexists. split; [reflexivity|].
    split; [vm_compute; reflexivity|].
    split; [vm_compute; reflexivity|].
    split; vm_compute; reflexivity.
Qed.

(** C6 as first stated fails on the cash flow bridge: the total the
    program folds is below 28.5, not equal to it. *)
Lemma cash_flow_total_is_below_28_5 :
  exists total st,
    B64.db_cash_flow = Returns (total, st) /\
    (total =? 28.5)%float = false /\
    (total <? 28.5)%float = true.
Proof.
  do 2 eexists. split; [reflexivity|].
  split; vm_compute; reflexivity.
Qed.

(** C7. For a valid step sequence, an interior index whose value is 0
    gets an INCREASE bar of height 0 whose bottom is the current running
    total, and the pass leaves the running total as it was. *)
Theorem zero_delta_is_flat_increase :
  forall categories values start_val i v,
    valid_steps categories values start_val ->
    interior_step values i v ->
    (v == 0)%Q ->
    let before := running_before (length categories) values start_val i in
    let after := running_before (length categories) values start_val (S i) in
    exists st b,
      _waterfall categories values start_val = Returns st /\
      bar_at st i = Some b /\
      color_class (bar_color b) = INCREASE /\
      (bar_height b == 0)%Q /\
      (bar_bottom b == before)%Q /\
      (after == before)%Q.
Proof.
  intros categories values start_val i v Hvalid Hint Hz.
  destruct (waterfall_interior _ _ _ _ _ Hvalid Hint) as (_ & Ha & Hlaw).
  cbv zeta in *.
  destruct Hlaw as (b & Hb & Hpos & _ & _).
  destruct Hpos as (Hbot & Hh & Hc); [rewrite Hz; apply Qle_refl|].
  eexists. exists b. split; [reflexivity|]. split; [exact Hb|].
  split; [exact Hc|]. split; [rewrite Hh; exact Hz|]. split; [exact Hbot|].
  rewrite Ha, Hz. ring.
Qed.

Lemma zero_delta_is_flat_increase_witness :
  let categories := ["Start"; "Flat"; "End"]%string in
  let values := [10; 0; 0]%Q in
  valid_steps categories values 10 /\
  interior_step values 1 0 /\
  exists st b,
    _waterfall categories values 10 = Returns st /\
    bar_at st 1 = Some b /\
    color_class (bar_color b) = INCREASE /\
    (bar_height b == 0)%Q /\
    (bar_bottom b == running_before 3 values 10 1)%Q /\
    (running_before 3 values 10 2 == running_before 3 values 10 1)%Q.
Proof.
  cbv zeta.
  assert (Hvalid : valid_steps ["Start"; "Flat"; "End"]%string [10; 0; 0]%Q 10).
  { repeat split. simpl; lia. }
  assert (Hint : interior_step [10; 0; 0]%Q 1 0).
  { repeat split; simpl; lia. }
  split; [exact Hvalid|]. split; [exact Hint|].
  exact (zero_delta_is_flat_increase _ _ _ _ _ Hvalid Hint (Qeq_refl 0)).
Defined.

(** ** Heights *)




(** ** Shape of the result *)

(** C9. For a valid step sequence of length [n] the layout holds exactly
    [n] bars (each of the three lists has [n] entries), and the bar at
    position [i] is the one the pass over index [i] appended for the
    value found there: bars come one per step, in input order. *)
Theorem one_bar_per_step_in_order :
  forall categories values start_val,
    valid_steps categories values start_val ->
    exists st,
      _waterfall categories values start_val = Returns st /\
      length (bottoms st) = length values /\
      length (bar_vals st) = length values /\
      length (colors st) = length values /\
      (forall i, bar_at st i <> None <-> (i < length values)%nat) /\
      (forall i v, nth_error values i = Some v ->
         exists b,
           bar_at st i = Some b /\
           bar_at (body closing_height (length categories)
                     (loop closing_height (length categories)
                        (firstn i values) (init start_val))
                     (i, v)) i = Some b).
Proof.
  intros categories values start_val Hvalid.
  destruct (loop_lengths closing_height (length categories) values
              (init start_val)) as (L1 & L2 & L3).
  simpl in L1, L2, L3.
  eexists. split; [reflexivity|].
  split; [exact L1|]. split; [exact L2|]. split; [exact L3|]. split.
  - intro i. split.
    + intro H. destruct (Nat.lt_ge_cases i (length values)) as [Hi|Hi];
        [exact Hi|]. exfalso. apply H. unfold bar_at.
      replace (nth_error (bottoms _) i) with (@None Q); [reflexivity|].
      symmetry. apply nth_error_None. lia.
    + intros Hi H.
      destruct (bar_at_some
                  (loop closing_height (length categories) values
                     (init start_val)) i) as [b Hb]; try lia.
      congruence.
  - intros i v Hv.
    assert (Hi : (i < length values)%nat) by (apply nth_error_Some; congruence).
    destruct (bar_at_some
                (loop closing_height (length categories) values
                   (init start_val)) i) as [b Hb]; try lia.
    exists b. split; [exact Hb|].
    rewrite <- Hb. symmetry. apply bar_at_loop. exact Hv.
Qed.

Lemma one_bar_per_step_in_order_witness :
  let categories := ["Start"; "Drop"; "End"]%string in
  let values := [10; -3; 0]%Q in
  valid_steps categories values 10 /\
  exists st,
    _waterfall categories values 10 = Returns st /\
    length (bottoms st) = 3%nat /\
    length (bar_vals st) = 3%nat /\
    length (colors st) = 3%nat.
Proof.
  cbv zeta.
  assert (Hvalid : valid_steps ["Start"; "Drop"; "End"]%string [10; -3; 0]%Q 10).
  { repeat split. simpl; lia. }
  split; [exact Hvalid|].
  destruct (one_bar_per_step_in_order _ _ _ Hvalid)
    as (st & Hret & L1 & L2 & L3 & _).
  exists st. repeat split; assumption.
Defined.

(** C10. The layout of [_waterfall] is total: for every list of labels,
    every list of values and every start value it returns, and each of
    its three lists has one entry per value.  An empty list of values
    gives no bar.  A one-element list gives the single bar of the index-0
    branch, an ANCHOR bar with bottom 0 and the value as height, also when
    there is one label and index 0 is the last index as well. *)
Theorem layout_is_total :
  (forall categories values start_val,
      exists st,
        _waterfall categories values start_val = Returns st /\
        length (bottoms st) = length values /\
        length (bar_vals st) = length values /\
        length (colors st) = length values) /\
  (forall categories start_val,
      _waterfall categories [] start_val = Returns (init start_val)) /\
  (forall categories v start_val,
      _waterfall categories [v] start_val =
      Returns {| running := start_val; bottoms := [0%Q]; bar_vals := [v];
                 colors := [ACCENT_BLUE] |}) /\
  (forall label v start_val,
      exists st,
        _waterfall [label] [v] start_val = Returns st /\
        bar_at st 0 = Some (0%Q, v, ACCENT_BLUE) /\
        bar_at st 1 = None /\
        color_class ACCENT_BLUE = ANCHOR).
Proof.
  split; [|split; [|split]].
  - intros categories values start_val.
    destruct (loop_lengths closing_height (length categories) values
                (init start_val)) as (L1 & L2 & L3).
    eexists. split; [reflexivity|]. repeat split; assumption.
  - reflexivity.
  - reflexivity.
  - intros label v start_val. eexists. split; [reflexivity|].
    repeat split.
Qed.

(** ** Errors *)

Lemma b64_loop_snoc (eh : float -> float -> float) (n : nat)
  (l : list float) (x : float) (st : B64.locals) :
  B64.loop eh n (l ++ [x]) st = B64.body eh n (B64.loop eh n l st) (length l, x).
Proof.
  unfold B64.loop. now rewrite enumerate_snoc, fold_left_app.
Qed.

Lemma b64_body_lengths (eh : float -> float -> float) (n : nat)
  (st : B64.locals) (iv : nat * float) :
  length (B64.bottoms (B64.body eh n st iv)) = S (length (B64.bottoms st)) /\
  length (B64.bar_vals (B64.body eh n st iv)) = S (length (B64.bar_vals st)) /\
  length (B64.colors (B64.body eh n st iv)) = S (length (B64.colors st)).
Proof.
  destruct iv as [i v]. unfold B64.body.
  destruct (Z.of_nat i =? 0)%Z; [|destruct (Z.of_nat i =? Z.of_nat n - 1)%Z;
    [|destruct (0 <=? v)%float]];
    simpl; rewrite !length_app; simpl; lia.
Qed.

Lemma b64_loop_lengths (eh : float -> float -> float) (n : nat)
  (l : list float) (st : B64.locals) :
  length (B64.bottoms (B64.loop eh n l st)) =
    (length (B64.bottoms st) + length l)%nat /\
  length (B64.bar_vals (B64.loop eh n l st)) =
    (length (B64.bar_vals st) + length l)%nat /\
  length (B64.colors (B64.loop eh n l st)) =
    (length (B64.colors st) + length l)%nat.
Proof.
  induction l as [|x l IH] using rev_ind.
  - unfold B64.loop; simpl. lia.
  - pose proof (b64_body_lengths eh n (B64.loop eh n l st) (length l, x)).
    rewrite b64_loop_snoc, length_app. change (length [x]) with 1%nat. lia.
Qed.

Lemma b64_connector_loop_returns (st : B64.locals) (idx : list nat) :
  (forall i, In i idx ->
     (i < length (B64.bottoms st))%nat /\ (i < length (B64.bar_vals st))%nat) ->
  exists segs,
    B64.connector_loop st idx = Returns segs /\ length segs = length idx.
Proof.
  induction idx as [|i rest IH]; intro Hin.
  - exists []. split; reflexivity.
  - destruct IH as (segs & Hret & Hlen).
    { intros j Hj. apply Hin. right. exact Hj. }
    destruct (Hin i (or_introl eq_refl)) as [Hb Hh].
    apply nth_error_Some in Hb, Hh.
    destruct (nth_error (B64.bottoms st) i) as [b|] eqn:Eb; [|congruence].
    destruct (nth_error (B64.bar_vals st) i) as [h|] eqn:Eh; [|congruence].
    eexists. simpl. rewrite Eb, Eh, Hret.
    split; [reflexivity|]. simpl. now rewrite Hlen.
Qed.

(** C4, as amended.  [_waterfall] checks neither the number of steps nor
    the values.  Given one label per step, its layout loop and its
    connector loop, the statements that index a list, run to the end
    without raising for any number of steps, also none or one, and for
    any binary64 values, NaN and the infinities among them; the layout
    holds one bar per step and there is one connector per gap.  A single
    step gives a single ANCHOR bar with bottom 0 and that value as
    height, and no connector. *)
Theorem waterfall_never_raises :
  (forall categories values start_val,
      length categories = length values ->
      exists st segs,
        B64._waterfall categories values start_val = Returns st /\
        B64.waterfall_connectors categories values start_val = Returns segs /\
        length (B64.bottoms st) = length values /\
        length (B64.bar_vals st) = length values /\
        length (B64.colors st) = length values /\
        length segs = (length values - 1)%nat) /\
  (forall label v start_val,
      exists st,
        B64._waterfall [label] [v] start_val = Returns st /\
        B64.bar_at st 0 = Some (0%float, v, ACCENT_BLUE) /\
        B64.bar_at st 1 = None /\
        color_class ACCENT_BLUE = ANCHOR /\
        B64.waterfall_connectors [label] [v] start_val = Returns []).
Proof.
  split.
  - intros categories values start_val Hlen.
    destruct (b64_loop_lengths B64.closing_height (length categories) values
                (B64.init start_val)) as (L1 & L2 & L3).
    simpl in L1, L2, L3.
    unfold B64.waterfall_connectors, B64._waterfall, range.
    assert (Hk : Z.to_nat (Z.of_nat (length categories) - 1) =
                 (length values - 1)%nat) by lia.
    rewrite Hk.
    destruct (b64_connector_loop_returns
                (B64.loop B64.closing_height (length categories) values
                   (B64.init start_val))
                (seq 0 (length values - 1))) as (segs & Hret & Hsegs).
    { intros i Hi. apply in_seq in Hi. lia. }
    eexists. exists segs. split; [reflexivity|]. split; [exact Hret|].
    split; [exact L1|]. split; [exact L2|]. split; [exact L3|].
    now rewrite Hsegs, length_seq.
  - intros label v start_val. eexists.
    split; [reflexivity|]. repeat split.
Qed.

Lemma waterfall_never_raises_witness :
  let categories := ["Start"; "End"]%string in
  let values := [nan; 0%float] in
  length categories = length values /\
  exists st segs,
    B64._waterfall categories values nan = Returns st /\
    B64.waterfall_connectors categories values nan = Returns segs /\
    length (B64.bar_vals st) = 2%nat /\ length segs = 1%nat.
Proof.
  cbv zeta. split; [reflexivity|].
  destruct (proj1 waterfall_never_raises ["Start"; "End"]%string
              [nan; 0%float] nan eq_refl)
    as (st & segs & Hret & Hc & _ & L2 & _ & Ls).
  exists st, segs. repeat split; assumption.
Defined.

(** C4 as first stated fails: a single step is laid out, not rejected,
    and so is an empty list of steps; the same holds on binary64 numbers,
    connector loop included, where a NaN or an infinite value is laid out
    as well. *)
Lemma single_step_is_not_rejected :
  (_waterfall ["Only"]%string [5%Q] 5 =
     Returns {| running := 5; bottoms := [0%Q]; bar_vals := [5%Q];
                colors := [ACCENT_BLUE] |} /\
   _waterfall ["Only"]%string [5%Q] 5 <> Raises InvalidInput /\
   _waterfall [] [] 0 = Returns (init 0) /\
   _waterfall [] [] 0 <> Raises InvalidInput) /\
  (B64._waterfall ["Only"]%string [5%float] 5 =
     Returns {| B64.running := 5; B64.bottoms := [0%float];
                B64.bar_vals := [5%float]; B64.colors := [ACCENT_BLUE] |} /\
   B64.waterfall_connectors ["Only"]%string [5%float] 5 = Returns []) /\
  (B64._waterfall ["Start"; "End"]%string [nan; 0%float] nan =
     Returns {| B64.running := nan; B64.bottoms := [0%float; 0%float];
                B64.bar_vals := [nan; nan];
                B64.colors := [ACCENT_BLUE; ACCENT_BLUE] |} /\
   B64.waterfall_connectors ["Start"; "End"]%string [nan; 0%float] nan =
     Returns [(0%nat, nan)]) /\
  (B64._waterfall ["Start"; "Up"; "End"]%string [1%float; infinity; 0%float] 1 =
     Returns {| B64.running := infinity;
                B64.bottoms := [0%float; 1%float; 0%float];
                B64.bar_vals := [1%float; infinity; infinity];
                B64.colors := [ACCENT_BLUE; GREEN; ACCENT_BLUE] |} /\
   B64.waterfall_connectors ["Start"; "Up"; "End"]%string
     [1%float; infinity; 0%float] 1 =
     Returns [(0%nat, 1%float); (1%nat, infinity)]).
Proof.
  split; [|split; [|split]].
  - split; [reflexivity|]. split; [discriminate|].
    split; [reflexivity | discriminate].
  - split; vm_compute; reflexivity.
  - split; vm_compute; reflexivity.
  - split; vm_compute; reflexivity.
Qed.

(** ** The copies of the loop against each other *)

Section LoopCopies.

Variable n : nat.

(** Away from index [n - 1] a pass does not look at the closing height. *)
Lemma body_indep (eh1 eh2 : Q -> Q -> Q) (st : locals) (i : nat) (v : Q) :
  (Z.of_nat i <> Z.of_nat n - 1)%Z ->
  body eh1 n st (i, v) = body eh2 n st (i, v).
Proof.
  intro H. unfold body.
  destruct (Z.of_nat i =? 0)%Z; [reflexivity|].
  apply Z.eqb_neq in H. rewrite H. reflexivity.
Qed.

Lemma loop_indep (eh1 eh2 : Q -> Q -> Q) (l : list Q) (st : locals) :
  (length l < n)%nat -> loop eh1 n l st = loop eh2 n l st.
Proof.
  induction l as [|x l IH] using rev_ind; intro H.
  - reflexivity.
  - rewrite length_app in H; simpl in H.
    rewrite !loop_snoc, IH by lia. apply body_indep. lia.
Qed.

(** Before index [n - 1] the running total is the fold of [+] over the
    values after the first, term for term. *)
Lemma running_fold (eh : Q -> Q -> Q) (l : list Q) (r : Q) :
  (length l < n)%nat ->
  running (loop eh n l (init r)) = fold_left Qplus (tl l) r.
Proof.
  induction l as [|x l IH] using rev_ind; intro H.
  - reflexivity.
  - rewrite length_app in H; simpl in H.
    rewrite loop_snoc, running_body.
    destruct l as [|a l]; [reflexivity|].
    replace (Z.of_nat (length (a :: l)) =? 0)%Z with false
      by (symmetry; apply Z.eqb_neq; simpl length; lia).
    replace (Z.of_nat (length (a :: l)) =? Z.of_nat n - 1)%Z with false
      by (symmetry; apply Z.eqb_neq; simpl length in *; lia).
    cbn [orb]. rewrite IH by lia.
    rewrite tl_snoc by discriminate. rewrite fold_left_app. reflexivity.
Qed.

(** The pass over index [n - 1], when it is not index 0. *)
Lemma loop_closing (eh : Q -> Q -> Q) (l : list Q) (x r : Q) :
  l <> [] -> S (length l) = n ->
  loop eh n (l ++ [x]) (init r) =
  push (loop eh n l (init r)) 0%Q (eh (fold_left Qplus (tl l) r) x) ACCENT_BLUE.
Proof.
  intros Hl Hn. rewrite loop_snoc. unfold body.
  replace (Z.of_nat (length l) =? 0)%Z with false
    by (symmetry; apply Z.eqb_neq; destruct l; [congruence | simpl length; lia]).
  replace (Z.of_nat (length l) =? Z.of_nat n - 1)%Z with true
    by (symmetry; apply Z.eqb_eq; lia).
  rewrite running_fold by lia. reflexivity.
Qed.

End LoopCopies.

Lemma valid_steps_split cats vals start :
  valid_steps cats vals start ->
  exists l x, vals = (start :: l) ++ [x] /\ length cats = S (length (start :: l)).
Proof.
  intros (Hlen & H2 & Hs).
  destruct vals as [|x l _] using rev_ind; [discriminate|].
  rewrite length_app in *; simpl in *.
  destruct l as [|a l]; [simpl in H2; lia|].
  simpl in Hs. inversion Hs; subst.
  exists l, x. split; [reflexivity | simpl in *; lia].
Qed.

(** X1. On a valid step sequence whose last value is 0, the helper
    [_waterfall] and the loop the bridge dashboards repeat inline leave
    the very same lists and running total, and the total the inline copy
    folds beforehand is that running total. *)
Theorem helper_agrees_with_inline_copy :
  forall cats vals start v,
    valid_steps cats vals start ->
    nth_error vals (length vals - 1) = Some v ->
    (v == 0)%Q ->
    exists st,
      _waterfall cats vals start = Returns st /\
      inline_bridge cats vals start = Returns (running st, st).
Proof.
  intros cats vals start v Hvalid Hv Hz.
  destruct (valid_steps_split _ _ _ Hvalid) as (l & x & -> & Hn).
  replace (length ((start :: l) ++ [x]) - 1)%nat with (length (start :: l)) in Hv
    by (rewrite length_app; simpl; lia).
  rewrite nth_error_snoc_last in Hv. inversion Hv; subst x. clear Hv.
  eexists. split; [reflexivity|].
  unfold inline_bridge.
  rewrite (interior_snoc (start :: l) v) by discriminate.
  cbn [app tl].
  change (start :: l ++ [v]) with ((start :: l) ++ [v]).
  rewrite !(loop_closing (length cats)) by (try discriminate; lia).
  cbn [tl]. unfold closing_height.
  rewrite (Qeq_eq_bool _ _ Hz). cbn [negb].
  rewrite (loop_indep (length cats) closing_height
             (fun _ _ => fold_left Qplus l start)) by (simpl in *; lia).
  unfold push; cbn [running].
  rewrite (running_fold (length cats)) by (simpl in *; lia).
  reflexivity.
Qed.

Lemma helper_agrees_with_inline_copy_witness :
  let cats := ["Start"; "Gain"; "Drop"; "End"]%string in
  let vals := [10; 4; -3; 0]%Q in
  valid_steps cats vals 10 /\
  exists st,
    _waterfall cats vals 10 = Returns st /\
    inline_bridge cats vals 10 = Returns (running st, st).
Proof.
  cbv zeta.
  assert (Hvalid : valid_steps ["Start"; "Gain"; "Drop"; "End"]%string
                     [10; 4; -3; 0]%Q 10).
  { repeat split. simpl; lia. }
  split; [exact Hvalid|].
  exact (helper_agrees_with_inline_copy _ _ 10 0 Hvalid eq_refl (Qeq_refl 0)).
Defined.

(** X2. In the inline copy the value at the last index is a placeholder:
    with one label per value and at least one value before the last, two
    inputs that differ only in the last value give the same total and the
    same lists. *)
Theorem inline_copy_ignores_last_value :
  forall cats front x y start,
    front <> [] ->
    length cats = S (length front) ->
    inline_bridge cats (front ++ [x]) start =
    inline_bridge cats (front ++ [y]) start.
Proof.
  intros cats front x y start Hf Hn.
  destruct front as [|a f]; [congruence|].
  unfold inline_bridge.
  rewrite !(interior_snoc (a :: f)) by discriminate.
  cbn [app tl].
  change (a :: f ++ [x]) with ((a :: f) ++ [x]).
  change (a :: f ++ [y]) with ((a :: f) ++ [y]).
  rewrite !(loop_closing (length cats)) by (try discriminate; lia).
  reflexivity.
Qed.

Lemma inline_copy_ignores_last_value_witness :
  inline_bridge ["Start"; "Gain"; "End"]%string ([10; 4] ++ [0])%Q 10 =
  inline_bridge ["Start"; "Gain"; "End"]%string ([10; 4] ++ [99])%Q 10.
Proof.
  apply inline_copy_ignores_last_value; [discriminate | reflexivity].
Defined.

(** ** The bars add up *)



Section Reconcile.

Variable end_height : Q -> Q -> Q.
Variable n : nat.



End Reconcile.



(** ** Connectors *)

Lemma connector_loop_returns (x0 x1 : Q) (st : locals) (idx : list nat) :
  (forall i, In i idx ->
     (i < length (bottoms st))%nat /\ (i < length (bar_vals st))%nat) ->
  exists segs,
    connector_loop x0 x1 st idx = Returns segs /\
    length segs = length idx /\
    forall k i, nth_error idx k = Some i ->
      exists b h,
        nth_error (bottoms st) i = Some b /\
        nth_error (bar_vals st) i = Some h /\
        nth_error segs k =
          Some ((inject_Z (Z.of_nat i) + x0)%Q, (inject_Z (Z.of_nat i) + x1)%Q,
                (b + h)%Q).
Proof.
  induction idx as [|i rest IH]; intro Hin.
  - exists []. split; [reflexivity|]. split; [reflexivity|].
    intros [|k] j H; discriminate H.
  - destruct IH as (segs & Hret & Hlen & Hnth).
    { intros j Hj. apply Hin. right. exact Hj. }
    destruct (Hin i (or_introl eq_refl)) as [Hb Hh].
    apply nth_error_Some in Hb, Hh.
    destruct (nth_error (bottoms st) i) as [b|] eqn:Eb; [|congruence].
    destruct (nth_error (bar_vals st) i) as [h|] eqn:Eh; [|congruence].
    eexists. simpl. rewrite Eb, Eh, Hret.
    split; [reflexivity|]. split; [simpl; now rewrite Hlen|].
    intros [|k] j H; simpl in H.
    + inversion H; subst j. exists b, h. repeat split; assumption.
    + apply Hnth. exact H.
Qed.

Lemma connectors_spec (x0 x1 : Q) (n : nat) (values : list Q) (st : locals) :
  length (bottoms st) = length values ->
  length (bar_vals st) = length values ->
  length (colors st) = length values ->
  n = length values ->
  exists segs,
    connectors x0 x1 n st = Returns segs /\
    connectors_at_tops x0 x1 values st segs.
Proof.
  intros L1 L2 L3 Hn. unfold connectors, range.
  assert (Hk : Z.to_nat (Z.of_nat n - 1) = (length values - 1)%nat) by lia.
  rewrite Hk.
  destruct (connector_loop_returns x0 x1 st (seq 0 (length values - 1)))
    as (segs & Hret & Hlen & Hnth).
  { intros i Hi. apply in_seq in Hi. lia. }
  exists segs. split; [exact Hret|]. split.
  - now rewrite Hlen, length_seq.
  - intros i Hi.
    destruct (Hnth i i) as (b & h & Eb & Eh & Es).
    { rewrite nth_error_seq.
      replace (i <? length values - 1)%nat with true
        by (symmetry; apply Nat.ltb_lt; lia).
      reflexivity. }
    destruct (bar_at_some st i) as [[[b' h'] c] Hbar]; try lia.
    exists (b', h', c). split; [exact Hbar|].
    unfold bar_at in Hbar. rewrite Eb, Eh in Hbar.
    destruct (nth_error (colors st) i); [|discriminate].
    inversion Hbar; subst. exact Es.
Qed.

Lemma waterfall_connectors_tops categories values start_val :
  length categories = length values ->
  exists st segs,
    _waterfall categories values start_val = Returns st /\
    waterfall_connectors categories values start_val = Returns segs /\
    connectors_at_tops 0.275 0.725 values st segs.
Proof.
  intro Hlen.
  destruct (loop_lengths closing_height (length categories) values
              (init start_val)) as (L1 & L2 & L3).
  destruct (connectors_spec 0.275 0.725 (length categories) values _
              L1 L2 L3 Hlen) as (segs & Hret & Htops).
  eexists. exists segs. split; [reflexivity|]. split; [exact Hret | exact Htops].
Qed.

Lemma inline_connectors_tops x0 x1 cats vals start :
  length cats = length vals -> vals <> [] ->
  exists total st segs,
    inline_bridge cats vals start = Returns (total, st) /\
    inline_connectors x0 x1 cats vals start = Returns segs /\
    connectors_at_tops x0 x1 vals st segs.
Proof.
  intros Hlen Hne.
  destruct vals as [|run rest]; [congruence|].
  unfold inline_connectors, inline_bridge.
  set (total := fold_left Qplus (interior (run :: rest)) start).
  destruct (loop_lengths (fun _ _ => total) (length cats) (run :: rest)
              (init run)) as (L1 & L2 & L3).
  destruct (connectors_spec x0 x1 (length cats) (run :: rest) _
              L1 L2 L3 Hlen) as (segs & Hret & Htops).
  eexists. eexists. exists segs.
  split; [reflexivity|]. split; [exact Hret | exact Htops].
Qed.

(** X4. With one label per value the connector loop never runs past the
    lists: it draws one connector per gap between neighbouring bars, and
    the connector of gap [i] runs from [i + x0] to [i + x1] at the top of
    bar [i] (bottom plus height).  This holds for [_waterfall] and for
    the inline copies. *)
Theorem connectors_sit_on_bar_tops :
  (forall categories values start_val,
      length categories = length values ->
      exists st segs,
        _waterfall categories values start_val = Returns st /\
        waterfall_connectors categories values start_val = Returns segs /\
        connectors_at_tops 0.275 0.725 values st segs) /\
  (forall x0 x1 cats vals start,
      length cats = length vals -> vals <> [] ->
      exists total st segs,
        inline_bridge cats vals start = Returns (total, st) /\
        inline_connectors x0 x1 cats vals start = Returns segs /\
        connectors_at_tops x0 x1 vals st segs).
Proof.
  split.
  - intros categories values start_val Hlen.
    apply waterfall_connectors_tops. exact Hlen.
  - intros x0 x1 cats vals start Hlen Hne.
    apply inline_connectors_tops; assumption.
Qed.

Lemma connectors_sit_on_bar_tops_witness :
  let categories := ["Start"; "Drop"; "End"]%string in
  let values := [10; -3; 0]%Q in
  length categories = length values /\
  exists st segs,
    _waterfall categories values 10 = Returns st /\
    waterfall_connectors categories values 10 = Returns segs /\
    connectors_at_tops 0.275 0.725 values st segs.
Proof.
  cbv zeta. split; [reflexivity|].
  exact (proj1 connectors_sit_on_bar_tops
           ["Start"; "Drop"; "End"]%string [10; -3; 0]%Q 10 eq_refl).
Defined.

Section ConnectorLevels.

Variable end_height : Q -> Q -> Q.
Variable n : nat.

Lemma loop_connector_levels (x0 x1 : Q) (values : list Q) (r : Q)
  (segs : list segment) :
  length values = n ->
  nth_error values 0 = Some r ->
  connectors_at_tops x0 x1 values (loop end_height n values (init r)) segs ->
  connector_levels values
    (fun k => running (loop end_height n (firstn k values) (init r))) segs.
Proof.
  intros Hn Hs [_ Htops] i v Hi Hv.
  destruct (Htops i Hi) as (b & Hb & Hseg).
  eexists. eexists. exists (bar_top b). split; [exact Hseg|].
  destruct i as [|i].
  - assert (v = r) by congruence. subst v.
    destruct (first_bar end_height n values r r Hs) as [Hb0 Hr0].
    rewrite Hb0 in Hb. inversion Hb; subst b.
    split; [|intro H; inversion H].
    intros _. rewrite Hr0. unfold bar_top, bar_bottom, bar_height; simpl. ring.
  - destruct (interior_bar end_height n values r (S i) v) as [Hbi Ha];
      try assumption; try lia.
    cbv zeta in Hbi. rewrite Hbi in Hb. rewrite Ha.
    set (before := running (loop end_height n (firstn (S i) values) (init r)))
      in *.
    destruct (Qle_bool 0 v) eqn:E; inversion Hb; subst b;
      unfold bar_top, bar_bottom, bar_height; simpl.
    + split; [intros _; reflexivity|].
      intros _ Hneg. exfalso. apply Qle_bool_iff in E.
      exact (Qlt_not_le _ _ Hneg E).
    + assert (Hneg : (v < 0)%Q).
      { apply Qnot_le_lt. intro Hle. apply Qle_bool_iff in Hle. congruence. }
      split.
      * intros [H0|Hle]; [discriminate H0|].
        exfalso. exact (Qlt_not_le _ _ Hneg Hle).
      * intros _ _. split; [reflexivity|].
        rewrite <- (Qplus_0_r (before + v)) at 1.
        apply Qplus_le_r. apply Qabs_nonneg.
Qed.

End ConnectorLevels.

(** X5. Where the connectors lie.  For a valid step sequence the connector
    after the opening bar and after a bar with a non-negative value lies
    at the running total with which the next pass starts.  After a bar
    with a negative value [v] it lies at the top of that bar: at the
    running total with which the next pass starts plus [|v|], and so
    never below that total. *)
Theorem connector_follows_increase_not_decrease :
  (forall categories values start_val,
      valid_steps categories values start_val ->
      exists segs,
        waterfall_connectors categories values start_val = Returns segs /\
        connector_levels values
          (running_before (length categories) values start_val) segs) /\
  (forall x0 x1 cats vals start,
      valid_steps cats vals start ->
      exists total st segs,
        inline_bridge cats vals start = Returns (total, st) /\
        inline_connectors x0 x1 cats vals start = Returns segs /\
        connector_levels vals (run_before (length cats) vals total) segs).
Proof.
  split.
  - intros categories values start_val (Hlen & H2 & Hs).
    destruct (waterfall_connectors_tops categories values start_val Hlen)
      as (st & segs & Hst & Hret & Htops).
    inversion Hst; subst st.
    exists segs. split; [exact Hret|].
    apply (loop_connector_levels closing_height (length categories)
             0.275 0.725); auto.
  - intros x0 x1 cats vals start Hvalid.
    destruct (inline_bridge_returns _ _ _ Hvalid) as [Hbr Hhd].
    destruct Hvalid as (Hlen & H2 & Hs).
    assert (Hne : vals <> []) by (intro E; subst; discriminate).
    destruct (inline_connectors_tops x0 x1 cats vals start Hlen Hne)
      as (total & st & segs & Hst & Hret & Htops).
    rewrite Hbr in Hst. inversion Hst; subst total st.
    eexists. eexists. exists segs.
    split; [exact Hbr|]. split; [exact Hret|].
    unfold run_before. rewrite Hhd.
    apply (loop_connector_levels _ (length cats) x0 x1); auto.
Qed.

Lemma connector_follows_increase_not_decrease_witness :
  let categories := ["Start"; "Drop"; "End"]%string in
  let values := [10; -3; 0]%Q in
  valid_steps categories values 10 /\
  exists segs,
    waterfall_connectors categories values 10 = Returns segs /\
    connector_levels values (running_before 3 values 10) segs.
Proof.
  cbv zeta.
  assert (Hvalid : valid_steps ["Start"; "Drop"; "End"]%string [10; -3; 0]%Q 10).
  { repeat split. simpl; lia. }
  split; [exact Hvalid|].
  exact (proj1 connector_follows_increase_not_decrease _ _ _ Hvalid).
Defined.

(** ** The variance flag *)





